(** * cap-parallel: [mapAllSettled], a settle-all map with bounded parallelism

    A shallow embedding of [src/lib.ts].

    The JavaScript run time is single threaded: a worker runs without
    interruption from one [await] to the next.  The embedding therefore has
    one atomic step per such stretch of code, and a schedule (the order in
    which the pending promises settle, which the program does not control)
    picks the worker that runs next.  The shared objects of the program -- the
    input array, the generator returned by [mapParams], the [result] array and
    the [workers] array -- live in one [state], so that every alias sees the
    same content.

    Conventions.
    - [concurrentLimit] is a JavaScript [number]: an integer, a value that is
      not integral (kept as the integer below it), NaN or an infinity; an
      omitted argument is [None].
    - A transform is an [AsyncMapFn]: called with the value, the index and the
      current content of the array, it either throws synchronously or returns
      a promise, and that promise either is fulfilled or rejects.  Its writes
      to the array (it receives a reference to it) take effect at the call.
      Every promise of a transform is taken to settle; when it does is left to
      the schedule.
    - [console.time], [console.timeEnd], [console.log] and [Date.now] only
      report, and what they report is left out, as is the [id] of a worker,
      which only they use.  The labels of lines 65 and 68 are template
      literals that convert the item to a string, which can throw (a Symbol,
      an object whose [toString] throws): that conversion is kept, as
      [to_string], a function of the item.  The counter [processed] is
      kept. *)

From stdpp Require Import base numbers option list strings gmap.
From stdpp Require Import pretty.

(** ** Values of the run time *)

(** A completion of a piece of code: a normal value, or a thrown one. *)
Inductive completion (X A : Type) : Type :=
  | normal (a : A)
  | throw (x : X).
Arguments normal {X A} a.
Arguments throw {X A} x.

Definition cbind {X A B} (c : completion X A) (k : A → completion X B)
  : completion X B :=
  match c with
  | normal a => k a
  | throw x => throw x
  end.

(** [try { body } catch (reason) { handler }] *)
Definition try_catch {X A} (body : completion X A) (handler : X → completion X A)
  : completion X A :=
  match body with
  | normal a => normal a
  | throw reason => handler reason
  end.

(** A JavaScript array that may have holes; reading a hole or past the end
    gives [undefined] ([None]), writing past the end extends the array. *)
Definition js_get {A} (l : list (option A)) (i : nat) : option A :=
  match l !! i with
  | Some (Some x) => Some x
  | _ => None
  end.

Definition js_set {A} (l : list (option A)) (i : nat) (x : A) : list (option A) :=
  if decide (i < length l) then <[i := Some x]> l
  else l ++ replicate (i - length l) None ++ [Some x].

(** What is thrown: an error of the run time, or a value [reason] thrown by
    code of the user. *)
Inductive thrown (E : Type) : Type :=
  | RangeError   (* new Array(n), n not an array length *)
  | TypeError    (* a Symbol converted to a string; for-of over no iterable *)
  | Reason (reason : E).
Arguments RangeError {E}.
Arguments TypeError {E}.
Arguments Reason {E} reason.

(** The conversion of an item to a string, as a template literal does it. *)
Class ToString (T E : Type) := to_string : T → completion (thrown E) string.

(** A JavaScript number, as far as [Math.min] with an array length and
    [new Array] tell numbers apart.  [Between floor] is a number that is not
    integral, above [floor] and below [floor + 1]. *)
Inductive number : Type :=
  | Int (z : Z)
  | Between (floor : Z)
  | NaN
  | Infinity
  | NegInfinity.

(** [Math.min(x, n)] for an array length [n]. *)
Definition Math_min (x : number) (n : nat) : number :=
  match x with
  | Int z => Int (Z.min z (Z.of_nat n))
  | Between floor => if decide (floor < Z.of_nat n)%Z then Between floor else Int (Z.of_nat n)
  | NaN => NaN
  | Infinity => Int (Z.of_nat n)
  | NegInfinity => NegInfinity
  end.

(** [new Array(x)]: the length of the array of holes, or [None] when [x]
    is no array length and a RangeError is thrown.  The program calls it on
    the result of [Math.min] with the length of an array, which is below
    2^32: what is left to tell is the sign and whether [x] is integral. *)
Definition new_Array (x : number) : option nat :=
  match x with
  | Int z => if decide (0 ≤ z)%Z then Some (Z.to_nat z) else None
  | _ => None
  end.

(** ** The program *)

Section lib.
Context {T R E : Type} `{!ToString T E}.

(** lines 1-11 *)
Inductive PromiseSettledResult : Type :=
  | fulfilled (value : R)
  | rejected (reason : E).

(** How the promise returned by a transform settles. *)
Inductive promise : Type :=
  | resolves (value : R)
  | rejects (reason : E).

(** lines 13-17: the call yields a completion and the array as the call
    leaves it. *)
Definition AsyncMapFn : Type :=
  T → nat → list T → completion E promise * list T.

Definition await (p : promise) : completion E R :=
  match p with
  | resolves value => normal value
  | rejects reason => throw reason
  end.

(** lines 28-45 *)
Definition runMapFn (mapFn : AsyncMapFn) (value : T) (index : nat) (array : list T)
  : completion E PromiseSettledResult * list T :=
  let '(call, array') := mapFn value index array in
  (try_catch
     (cbind call (λ p, cbind (await p) (λ v, normal (fulfilled v))))
     (λ reason, normal (rejected reason)),
   array').

(** lines 83-88: the generator object.  It is suspended before the first
    statement of the body, suspended at the [yield] with the loop variable
    [index], or completed. *)
Inductive generator : Type :=
  | SuspendedStart
  | SuspendedYield (index : nat)
  | Completed.

Definition mapParams : generator := SuspendedStart.

(** The loop test [index < array.length] followed by the read
    [array[index]] and the [yield]: [array !! index] is [Some] exactly when
    [index < length array].  The third component of the yielded triple is
    the reference to the array, which the state holds. *)
Definition mapParams_loop (array : list T) (index : nat)
  : option (T * nat) * generator :=
  match array !! index with
  | Some currentValue => (Some (currentValue, index), SuspendedYield index)
  | None => (None, Completed)
  end.

(** [gen.next()] *)
Definition gen_next (array : list T) (g : generator)
  : option (T * nat) * generator :=
  match g with
  | SuspendedStart => mapParams_loop array 0
  | SuspendedYield index => mapParams_loop array (S index)
  | Completed => (None, Completed)
  end.

(** [n] calls of [gen.next()] in a row on an array nobody writes. *)
Fixpoint gen_take (array : list T) (g : generator) (n : nat)
  : list (option (T * nat)) :=
  match n with
  | 0 => []
  | S n' => let '(item, g') := gen_next array g in item :: gen_take array g' n'
  end.

(** lines 55-75: the promise of one call of [worker], with the local
    variables the worker still needs.  A worker that has failed keeps the
    count it had reached. *)
Inductive worker_state : Type :=
  | awaiting (currentValue : T) (index processed : nat)
             (pending : completion E PromiseSettledResult)   (* line 66 *)
  | finished (processed : nat)
  | failed (processed : nat) (x : thrown E).

Record state : Type := State {
  array : list T;                               (* arr *)
  gen : option generator;                       (* None before line 108 *)
  result : list (option PromiseSettledResult);  (* line 102 *)
  workers : list (option worker_state);         (* line 112 *)
  calls : list (T * nat);                       (* log: calls of the transform *)
  writes : list nat;                            (* log: writes to result *)
}.

Definition set_workers (ws : list (option worker_state)) (s : state) : state :=
  State (array s) (gen s) (result s) ws (calls s) (writes s).

Definition set_gen (g : generator) (s : state) : state :=
  State (array s) (Some g) (result s) (workers s) (calls s) (writes s).

(** line 66, after the [await]: [result[index] = ...] *)
Definition write_result (index : nat) (r : PromiseSettledResult) (s : state) : state :=
  State (array s) (gen s) (js_set (result s) index r) (workers s)
        (calls s) (writes s ++ [index]).

(** lines 64-66: the head of the for-of loop and the body up to the
    [await].  Line 65 converts the item to a string for its label; when that
    throws, the for-of loop ends abruptly, which closes the generator, and
    the worker rejects.  Otherwise [runMapFn] runs up to its own [await] at
    once, which calls the transform. *)
Definition worker_loop (mapFn : AsyncMapFn) (processed : nat) (s : state)
  : worker_state * state :=
  match gen s with
  | None => (failed processed TypeError, s)
  | Some g =>
    let '(item, g') := gen_next (array s) g in
    match item with
    | None => (finished processed, set_gen g' s)
    | Some (currentValue, index) =>
      match to_string currentValue with
      | throw x => (failed processed x, set_gen Completed s)
      | normal _ =>
        let '(pending, array') := runMapFn mapFn currentValue index (array s) in
        (awaiting currentValue index processed pending,
         State array' (Some g') (result s) (workers s)
               (calls s ++ [(currentValue, index)]) (writes s))
      end
    end
  end.

(** line 55: a call of [worker] runs up to its first [await]. *)
Definition worker (mapFn : AsyncMapFn) (s : state) : worker_state * state :=
  worker_loop mapFn 0 s.

(** lines 113-115 *)
Fixpoint launch (mapFn : AsyncMapFn) (n : nat) (s : state) : state :=
  match n with
  | 0 => s
  | S n' =>
    let '(w, s') := worker mapFn s in
    launch mapFn n' (set_workers (workers s' ++ [Some w]) s')
  end.

Inductive control : Type :=
  | Returned                (* line 105 *)
  | Threw (x : thrown E)    (* line 112 *)
  | AwaitAll.               (* line 119 *)

Definition init (arr : list T) : state := State arr None [] [] [] [].

(** lines 97-119: [mapAllSettled] up to its [await]. *)
Definition mapAllSettled_sync (mapFn : AsyncMapFn) (arr : list T)
    (concurrentLimit : option number) : control * state :=
  let concurrentLimit := default (Int (Z.of_nat (length arr))) concurrentLimit in
  let s := init arr in
  if decide (length arr = 0) then (Returned, s)
  else
    let s := set_gen mapParams s in
    let concurrentLimit := Math_min concurrentLimit (length arr) in
    match new_Array concurrentLimit with
    | None => (Threw RangeError, s)
    | Some n =>
      let s := set_workers (replicate n None) s in
      (AwaitAll, launch mapFn n s)
    end.

(** [Promise.all(workers)]: rejected once a worker is, fulfilled when all
    entries are (a hole counts as fulfilled), pending otherwise. *)
Fixpoint promise_all (ws : list (option worker_state))
  : option (completion (thrown E) ()) :=
  match ws with
  | [] => Some (normal ())
  | Some (failed _ x) :: _ => Some (throw x)
  | Some (awaiting _ _ _ _) :: ws' =>
    match promise_all ws' with
    | Some (throw x) => Some (throw x)
    | _ => None
    end
  | _ :: ws' => promise_all ws'
  end.

(** The worker at position [p] of [workers] continues after its [await]:
    line 66 stores the settled result, line 67 counts, line 68 converts the
    item to a string once more for the label, and the loop goes round.
    Where line 68 throws -- or had [runMapFn] thrown -- the for-of loop ends
    abruptly, which closes the generator, and the worker rejects. *)
Definition resume (mapFn : AsyncMapFn) (p : nat) (s : state) : option state :=
  match workers s !! p with
  | Some (Some (awaiting currentValue index processed pending)) =>
    match pending with
    | normal r =>
      let s1 := write_result index r s in
      match to_string currentValue with
      | throw x =>
        Some (set_workers (<[p := Some (failed (S processed) x)]> (workers s1))
                (set_gen Completed s1))
      | normal _ =>
        let '(w, s') := worker_loop mapFn (S processed) s1 in
        Some (set_workers (<[p := Some w]> (workers s')) s')
      end
    | throw reason =>
      Some (set_workers (<[p := Some (failed processed (Reason reason))]> (workers s))
              (set_gen Completed s))
    end
  | _ => None
  end.

(** One step of the event loop while [mapAllSettled] is suspended at
    line 119. *)
Definition step (mapFn : AsyncMapFn) (p : nat) (s : state) : option state :=
  match promise_all (workers s) with
  | Some _ => None
  | None => resume mapFn p s
  end.

Fixpoint run (mapFn : AsyncMapFn) (sched : list nat) (s : state) : option state :=
  match sched with
  | [] => Some s
  | p :: sched' =>
    match step mapFn p s with
    | Some s' => run mapFn sched' s'
    | None => None
    end
  end.

(** lines 97-122.  [Some (c, s)]: under the schedule the promise of
    [mapAllSettled] settles as [c], in state [s].  [None]: the schedule is
    not one of this call, or the promise is still pending at its end. *)
Definition mapAllSettled (mapFn : AsyncMapFn) (arr : list T)
    (concurrentLimit : option number) (sched : list nat)
  : option (completion (thrown E) (list (option PromiseSettledResult)) * state) :=
  match mapAllSettled_sync mapFn arr concurrentLimit with
  | (Returned, s) =>
    match sched with [] => Some (normal (result s), s) | _ => None end
  | (Threw x, s) =>
    match sched with [] => Some (throw x, s) | _ => None end
  | (AwaitAll, s0) =>
    match run mapFn sched s0 with
    | Some s =>
      match promise_all (workers s) with
      | Some (normal _) => Some (normal (result s), s)
      | Some (throw x) => Some (throw x, s)
      | None => None
      end
    | None => None
    end
  end.

(** The promise of the call can settle as [c]. *)
Definition settles (mapFn : AsyncMapFn) (arr : list T)
    (concurrentLimit : option number)
    (c : completion (thrown E) (list (option PromiseSettledResult))) : Prop :=
  ∃ sched s, mapAllSettled mapFn arr concurrentLimit sched = Some (c, s).

End lib.

Arguments PromiseSettledResult : clear implicits.
Arguments promise : clear implicits.
Arguments AsyncMapFn : clear implicits.
Arguments worker_state : clear implicits.
Arguments state : clear implicits.

(** Numbers and strings convert to strings without throwing. *)
Global Instance Z_to_string {E} : ToString Z E := λ z, normal (pretty z).
Global Instance string_to_string {E} : ToString string E := λ s, normal s.

(** Items some of which are Symbols, whose conversion to a string throws a
    TypeError. *)
Inductive item : Type :=
  | Num (z : Z)
  | Sym.

Global Instance item_to_string {E} : ToString item E := λ i,
  match i with
  | Num z => normal (pretty z)
  | Sym => throw TypeError
  end.

(** ** Settled results, work items and the state while waiting *)

(** The settled result of a call of the transform: fulfilled with the value
    when the call returns a promise that is fulfilled, rejected with the
    reason when the call throws or its promise rejects. *)
Definition settled {R E} (call : completion E (promise R E)) : PromiseSettledResult R E :=
  match call with
  | normal (resolves value) => fulfilled value
  | normal (rejects reason) => rejected reason
  | throw reason => rejected reason
  end.

(** The work items of an array, in the order of the indices. *)
Definition items {T} (array : list T) : list (T * nat) :=
  imap (λ index value, (value, index)) array.

(** How many items a generator over an array of length [N] has handed
    out. *)
Definition handed (N : nat) (g : generator) : nat :=
  match g with
  | SuspendedStart => 0
  | SuspendedYield index => S index
  | Completed => N
  end.

(** The transform leaves the array it is handed as it is. *)
Definition read_only {T R E} (mapFn : AsyncMapFn T R E) : Prop :=
  ∀ value index array, (mapFn value index array).2 = array.

(** What the conversion to a string of the first item that cannot be
    converted throws; [None] when every item can be converted. *)
Fixpoint first_unprintable {T E} `{!ToString T E} (arr : list T)
  : option (thrown E) :=
  match arr with
  | [] => None
  | value :: arr' =>
    match to_string value with
    | throw x => Some x
    | normal _ => first_unprintable arr'
    end
  end.

(** Every item of the array converts to a string: lines 65 and 68 do not
    throw. *)
Definition printable {T} (E : Type) `{!ToString T E} (arr : list T) : Prop :=
  first_unprintable (E:=E) arr = None.

(** The settled results of the transform over the array, index by index:
    what [Promise.allSettled] gives for the promises of a direct map. *)
Definition expected {T R E} (mapFn : AsyncMapFn T R E) (arr : list T)
  : list (PromiseSettledResult R E) :=
  imap (λ index value, settled (mapFn value index arr).1) arr.

(** The index a worker is waiting for. *)
Definition windex {T R E} (w : option (worker_state T R E)) : option nat :=
  match w with
  | Some (awaiting _ index _ _) => Some index
  | _ => None
  end.

Definition awaited {T R E} (ws : list (option (worker_state T R E))) : list nat :=
  omap windex ws.

(** Items not yet handed to the transform plus calls in flight. *)
Definition remaining {T R E} (N : nat) (s : state T R E) : nat :=
  (N - length (calls s)) + length (awaited (workers s)).

Definition has_worker {T R E} (s : state T R E) : Prop :=
  ∃ p w, workers s !! p = Some (Some w).

(** The state while [mapAllSettled] waits, for a transform that does not
    write to the array; [aw] are the indices in flight.  The transform has
    been called on the first items, all of which convert to strings; the
    generator has handed out just these, or is completed. *)
Record inv_core {T R E} `{!ToString T E} (mapFn : AsyncMapFn T R E) (arr : list T)
    (aw : list nat) (s : state T R E) : Prop := InvCore {
  ic_array : array s = arr;
  ic_gen : ∃ g, gen s = Some g
                ∧ (handed (length arr) g = length (calls s) ∨ g = Completed);
  ic_bound : length (calls s) ≤ length arr;
  ic_calls : calls s = take (length (calls s)) (items arr);
  ic_printed : ∀ i value, i < length (calls s) → arr !! i = Some value →
                          ∃ label, to_string (E:=E) value = normal label;
  ic_perm : writes s ++ aw ≡ₚ seq 0 (length (calls s));
  ic_length : length (result s) ≤ length (calls s);
  ic_slots : ∀ i, js_get (result s) i =
                  if decide (i ∈ writes s) then expected mapFn arr !! i else None;
}.

(** A worker that waits, waits for the settled result of its item; one that
    has finished has seen the generator completed; one that has failed has
    closed the generator at the first item that does not convert to a
    string, which is the next one the transform would have been called
    on. *)
Definition worker_ok {T R E} `{!ToString T E} (mapFn : AsyncMapFn T R E)
    (arr : list T) (s : state T R E) (w : option (worker_state T R E)) : Prop :=
  match w with
  | None => True
  | Some (awaiting currentValue index _ pending) =>
    (∃ r, pending = normal r ∧ expected mapFn arr !! index = Some r)
    ∧ ∃ label, to_string (E:=E) currentValue = normal label
  | Some (finished _) => gen s = Some Completed
  | Some (failed _ x) =>
    gen s = Some Completed
    ∧ ∃ value, arr !! length (calls s) = Some value ∧ to_string value = throw x
  end.

(** A generator that is completed has handed out every item, or was closed
    by a worker that failed. *)
Definition closed_ok {T R E} (N : nat) (s : state T R E) : Prop :=
  gen s = Some Completed →
  length (calls s) = N ∨ ∃ p k x, workers s !! p = Some (Some (failed k x)).

Definition inv {T R E} `{!ToString T E} (mapFn : AsyncMapFn T R E) (arr : list T)
    (s : state T R E) : Prop :=
  inv_core mapFn arr (awaited (workers s)) s
  ∧ Forall (worker_ok mapFn arr s) (workers s)
  ∧ closed_ok (length arr) s.

(** How a call with a worker settles: fulfilled with the settled results,
    or rejected with what the first item that does not convert to a string
    throws. *)
Definition outcome {T R E} `{!ToString T E} (mapFn : AsyncMapFn T R E)
    (arr : list T)
  : completion (thrown E) (list (option (PromiseSettledResult R E))) :=
  match first_unprintable arr with
  | None => normal (Some <$> expected mapFn arr)
  | Some x => throw x
  end.

(** The limit is left out, or an integer that is at least 1 / at least 0, or
    infinite. *)
Definition positive (concurrentLimit : option number) : Prop :=
  match concurrentLimit with
  | Some (Int limit) => (1 ≤ limit)%Z
  | Some Infinity => True
  | Some _ => False
  | None => True
  end.

Definition non_negative (concurrentLimit : option number) : Prop :=
  match concurrentLimit with
  | Some (Int limit) => (0 ≤ limit)%Z
  | Some Infinity => True
  | Some _ => False
  | None => True
  end.

(** The state after the synchronous part of the call and the steps of a
    schedule. *)
Definition reach {T R E} `{!ToString T E} (mapFn : AsyncMapFn T R E) (arr : list T)
    (concurrentLimit : option number) (sched : list nat) : option (state T R E) :=
  run mapFn sched (mapAllSettled_sync mapFn arr concurrentLimit).2.

(** ** Claims *)

(** The properties the specification states of a call, as predicates of the
    transform, the input and the requested limit. *)

(** A requested limit clamped into [1, N], as the specification words it. *)
Definition clamp (N : nat) (limit : Z) : Z :=
  Z.max 1 (Z.min limit (Z.of_nat N)).

(** Two requested limits give calls that settle in the same ways. *)
Definition same_behaviour {T R E} `{!ToString T E} (mapFn : AsyncMapFn T R E)
    (arr : list T) (limit1 limit2 : option number) : Prop :=
  ∀ c, settles mapFn arr limit1 c ↔ settles mapFn arr limit2 c.

(** Every execution of the call goes on to return. *)
Definition returns {T R E} `{!ToString T E} (mapFn : AsyncMapFn T R E)
    (arr : list T) (limit : option number) : Prop :=
  ∀ sched s1,
    reach mapFn arr limit sched = Some s1 →
    ∃ sched' res s,
      mapAllSettled mapFn arr limit (sched ++ sched') = Some (normal res, s).











(** ** Sample transforms *)

Definition double : AsyncMapFn Z Z string :=
  λ value _ array, (normal (resolves (2 * value)%Z), array).

Definition throw_on_2 : AsyncMapFn Z Z string :=
  λ value _ array,
    (if decide (value = 2)%Z then throw "two"%string
     else normal (resolves (10 * value)%Z), array).

Definition reject_odd_index : AsyncMapFn Z Z string :=
  λ value index array,
    (normal (if Nat.even index then resolves value else rejects "odd"%string), array).

(** A transform that writes to the array it is handed: the call for index 0
    appends its value. *)
Definition push_at_0 : AsyncMapFn Z Z string :=
  λ value index array,
    (normal (resolves value), if decide (index = 0) then array ++ [value] else array).

(** A transform on items that may be Symbols; it never fails. *)
Definition item_index : AsyncMapFn item nat string :=
  λ _ index array, (normal (resolves index), array).

(** ** Further notions of the program *)

(** The number of workers lines 110-115 launch on a non-empty array of
    length [N]. *)
Definition workers_launched (N : nat) (concurrentLimit : option number) : nat :=
  default 0 (new_Array (Math_min (default (Int (Z.of_nat N)) concurrentLimit) N)).

(** The [workers] array of lines 112-115 when [j] of [L] workers are
    launched: [L] holes, then the promises of the workers. *)
Definition workers_shape {T R E} (L j : nat)
    (ws : list (option (worker_state T R E))) : Prop :=
  length ws = L + j
  ∧ take L ws = replicate L None
  ∧ Forall is_Some (drop L ws).

(** The counter [processed] of a worker (lines 62 and 67). *)
Definition processed_of {T R E} (w : option (worker_state T R E)) : nat :=
  match w with
  | Some (awaiting _ _ processed _) => processed
  | Some (finished processed) => processed
  | Some (failed processed _) => processed
  | None => 0
  end.

Definition processed_total {T R E} (ws : list (option (worker_state T R E))) : nat :=
  sum_list_with processed_of ws.

(** The generator after [n] calls of [gen.next()] on an array nobody
    writes. *)
Fixpoint gen_after {T} (array : list T) (g : generator) (n : nat) : generator :=
  match n with
  | 0 => g
  | S n' => gen_after array (gen_next array g).2 n'
  end.

(** An [async function] as a transform: the call never throws, it returns a
    promise; this one reads its arguments only. *)
Definition async_fn {T R E} (f : T → nat → list T → promise R E)
  : AsyncMapFn T R E :=
  λ value index array, (normal (f value index array), array).

(** [Promise.allSettled] of promises that settle. *)
Definition allSettled {R E} (promises : list (promise R E))
  : list (PromiseSettledResult R E) :=
  (λ p, match p with
        | resolves value => fulfilled value
        | rejects reason => rejected reason
        end) <$> promises.

(** ** The caller (the driver of the demonstration) *)

(** The body of an [async function] gives the promise it returns. *)
Definition async {R E} (body : completion E R) : promise R E :=
  match body with
  | normal value => resolves value
  | throw reason => rejects reason
  end.

(** Driver, lines 3-11.  What the network answers is not the program's:
    [fetch] gives the promise of [fetch(url, ...)], [json] that of
    [response.json()], and [title] the completion of reading [todo.title]
    (which throws when [todo] is null or undefined). *)
Definition fetchTodoTitle {Response Todo R E}
    (fetch : string → promise Response E) (json : Response → promise Todo E)
    (title : Todo → completion E R) (url : string) : promise R E :=
  async (cbind (await (fetch url)) (λ response,
         cbind (await (json response)) (λ todo,
         title todo))).

(** Driver, lines 14-17. *)
Definition urls : list string :=
  (λ i : nat, "https://jsonplaceholder.typicode.com/todos/" +:+ pretty i)
    <$> seq 0 200.

(** Driver, line 21: [Promise.allSettled(urls.map(fetchTodoTitle))]. *)
Definition main_results1 {Response Todo R E}
    (fetch : string → promise Response E) (json : Response → promise Todo E)
    (title : Todo → completion E R) : list (PromiseSettledResult R E) :=
  allSettled (fetchTodoTitle fetch json title <$> urls).

(** Driver, line 30: [mapAllSettled(urls, fetchTodoTitle, 3)]; the function
    takes the first of the three arguments it is called with. *)
Definition main_results2 {Response Todo R E}
    (fetch : string → promise Response E) (json : Response → promise Todo E)
    (title : Todo → completion E R) (sched : list nat)
  : option (completion (thrown E) (list (option (PromiseSettledResult R E)))
            * state string R E) :=
  mapAllSettled (async_fn (λ url _ _, fetchTodoTitle fetch json title url))
    urls (Some (Int 3)) sched.
(** ** Arrays with holes *)

Section js_array.
Context {A : Type}.
Implicit Types (l : list (option A)) (x : A).

Lemma js_get_set l i j x :
  js_get (js_set l i x) j = if decide (j = i) then Some x else js_get l j.
Proof.
  unfold js_get, js_set. destruct (decide (i < length l)) as [Hi|Hi].
  - destruct (decide (j = i)) as [->|Hne].
    + by rewrite list_lookup_insert_eq.
    + by rewrite list_lookup_insert_ne.
  - destruct (decide (j = i)) as [->|Hne].
    + rewrite lookup_app_r by lia. rewrite lookup_app_r; rewrite length_replicate; [|lia].
      by replace (i - length l - (i - length l)) with 0 by lia.
    + destruct (decide (j < length l)) as [Hj|Hj].
      * by rewrite lookup_app_l.
      * rewrite lookup_app_r by lia. rewrite (lookup_ge_None_2 l j) by lia.
        destruct (decide (j < i)) as [Hji|Hji].
        -- rewrite lookup_app_l by (rewrite length_replicate; lia).
           rewrite lookup_replicate_2; [done|lia].
        -- rewrite lookup_ge_None_2; [done|].
           rewrite length_app, length_replicate. simpl. lia.
Qed.

Lemma js_set_length l i x : length (js_set l i x) = length l `max` S i.
Proof.
  unfold js_set. destruct (decide (i < length l)).
  - rewrite length_insert. lia.
  - rewrite !length_app, length_replicate. simpl. lia.
Qed.

(** An array without holes is determined by its reads. *)
Lemma js_array_full l (xs : list A) :
  length l ≤ length xs →
  (∀ i, i < length xs → js_get l i = xs !! i) →
  l = Some <$> xs.
Proof.
  intros Hlen Hget. apply list_eq. intros i. rewrite list_lookup_fmap.
  destruct (decide (i < length xs)) as [Hi|Hi].
  - specialize (Hget i Hi). unfold js_get in Hget.
    destruct (lookup_lt_is_Some_2 xs i Hi) as [x Hx]. rewrite Hx in *.
    destruct (l !! i) as [[y|]|]; simplify_eq; done.
  - rewrite (lookup_ge_None_2 l) by lia. by rewrite (lookup_ge_None_2 xs) by lia.
Qed.
End js_array.

(** ** Running the transform on one item *)

Section run_map_fn.
Context {T R E : Type}.
Implicit Types (mapFn : AsyncMapFn T R E).

Lemma runMapFn_settled mapFn value index array :
  runMapFn mapFn value index array
  = (normal (settled (mapFn value index array).1), (mapFn value index array).2).
Proof.
  unfold runMapFn. destruct (mapFn value index array) as [[[v|e]|e] a]; done.
Qed.
End run_map_fn.

(** ** The work source *)

Section work_source.
Context {T : Type}.
Implicit Types (array : list T) (g : generator).

Lemma items_length array : length (items array) = length array.
Proof. apply length_imap. Qed.

Lemma items_lookup array i :
  items array !! i = (λ value, (value, i)) <$> array !! i.
Proof. unfold items. by rewrite list_lookup_imap. Qed.

Lemma gen_next_handed array g :
  handed (length array) g ≤ length array →
  gen_next array g =
    match array !! handed (length array) g with
    | Some value =>
      (Some (value, handed (length array) g),
       SuspendedYield (handed (length array) g))
    | None => (None, Completed)
    end.
Proof.
  intros Hle. destruct g as [|index|]; simpl in *; try done.
  by rewrite lookup_ge_None_2.
Qed.

Lemma gen_take_handed array n : ∀ g,
  handed (length array) g ≤ length array →
  gen_take array g n =
    (Some <$> take n (drop (handed (length array) g) (items array)))
    ++ replicate (n - (length array - handed (length array) g)) None.
Proof.
  induction n as [|n IH]; intros g Hle; [done|].
  cbn [gen_take]. rewrite gen_next_handed by done.
  set (c := handed (length array) g) in *.
  destruct (array !! c) as [value|] eqn:Hc.
  - pose proof (lookup_lt_Some _ _ _ Hc) as Hlt.
    rewrite (IH (SuspendedYield c)) by (simpl; lia). simpl.
    rewrite (drop_S (items array) (value, c) c)
      by (by rewrite items_lookup, Hc).
    simpl. do 3 f_equal. lia.
  - apply lookup_ge_None_1 in Hc.
    rewrite (IH Completed) by (simpl; lia). simpl.
    rewrite !drop_ge by (rewrite items_length; lia).
    rewrite take_nil. simpl.
    replace (S n - (length array - c)) with (S n) by lia.
    simpl. do 2 f_equal. lia.
Qed.
End work_source.

(** ** Items that do not convert to strings *)

Section unprintable.
Context {T E : Type} `{!ToString T E}.
Implicit Types (arr : list T).

Lemma first_unprintable_None arr :
  first_unprintable arr = None ↔
  ∀ i value, arr !! i = Some value → ∃ label, to_string (E:=E) value = normal label.
Proof.
  induction arr as [|value0 arr IH]; simpl.
  { split; [by intros _ i value ?|done]. }
  destruct (to_string value0) as [label|x] eqn:Hts.
  - rewrite IH. split.
    + intros Hall [|i] value; simpl; [intros [= <-]; eauto|apply Hall].
    + intros Hall i value Hi. by apply (Hall (S i)).
  - split; [done|]. intros Hall. destruct (Hall 0 value0 eq_refl) as [label Hl].
    congruence.
Qed.

Lemma first_unprintable_Some arr : ∀ b value x,
  arr !! b = Some value → to_string value = throw x →
  (∀ i value', i < b → arr !! i = Some value' →
               ∃ label, to_string (E:=E) value' = normal label) →
  first_unprintable arr = Some x.
Proof.
  induction arr as [|value0 arr IH]; intros b value x Hb Hts Hbefore; [done|].
  simpl. destruct b as [|b]; simpl in Hb.
  - injection Hb as ->. by rewrite Hts.
  - destruct (Hbefore 0 value0) as [label ->]; [lia|done|].
    apply (IH b value x Hb Hts). intros i value' Hi.
    apply (Hbefore (S i)). lia.
Qed.
End unprintable.

(** ** Workers and the result array *)

Section awaited.
Context {T R E : Type}.
Implicit Types (ws : list (option (worker_state T R E))).

Lemma awaited_snoc ws w :
  awaited (ws ++ [w]) = awaited ws ++ option_list (windex w).
Proof. unfold awaited. rewrite omap_app. simpl. by destruct (windex w). Qed.

Lemma awaited_replicate n :
  awaited (replicate n (None : option (worker_state T R E))) = [].
Proof. induction n; [done|]. simpl. done. Qed.

Lemma awaited_insert ws p w w' :
  ws !! p = Some w →
  ∃ aw, awaited ws ≡ₚ option_list (windex w) ++ aw
        ∧ awaited (<[p := w']> ws) ≡ₚ aw ++ option_list (windex w').
Proof.
  intros Hp. exists (awaited (take p ws) ++ awaited (drop (S p) ws)).
  rewrite insert_take_drop by (by eapply lookup_lt_Some).
  rewrite <-(take_drop_middle ws p w Hp) at 1.
  unfold awaited. rewrite !omap_app. simpl.
  destruct (windex w), (windex w'); simpl; split; solve_Permutation.
Qed.

Lemma awaited_lookup ws i :
  i ∈ awaited ws →
  ∃ p value k pending, ws !! p = Some (Some (awaiting value i k pending)).
Proof.
  unfold awaited. rewrite list_elem_of_omap.
  intros ([[value j k pending| |]|] & Hin & Hw); simplify_eq/=.
  apply list_elem_of_lookup in Hin as [p Hp]. eauto.
Qed.


(** [Promise.all], case by case. *)
Lemma promise_all_cases ws :
  match promise_all ws with
  | Some (throw x) => ∃ p k, ws !! p = Some (Some (failed k x))
  | Some (normal _) =>
    awaited ws = []
    ∧ Forall (λ w, w = None ∨ ∃ processed, w = Some (finished processed)) ws
  | None => awaited ws ≠ []
  end.
Proof.
  induction ws as [|[[value i k pending|k|k x]|] ws IH]; simpl.
  - done.
  - destruct (promise_all ws) as [[[]|x]|]; [done| |done].
    destruct IH as (p & k' & Hp). by exists (S p), k'.
  - destruct (promise_all ws) as [[[]|x]|]; [| |done].
    + destruct IH as [? ?]. split; [done|]. constructor; [right; eauto|done].
    + destruct IH as (p & k' & Hp). by exists (S p), k'.
  - by exists 0, k.
  - destruct (promise_all ws) as [[[]|x]|]; [| |done].
    + destruct IH as [? ?]. split; [done|]. constructor; [by left|done].
    + destruct IH as (p & k' & Hp). by exists (S p), k'.
Qed.
End awaited.

(** The invariant of the state while [mapAllSettled] waits, for a transform
    that does not write to the array. *)
Section invariant.
Context {T R E : Type} `{!ToString T E} (mapFn : AsyncMapFn T R E) (arr : list T).
Hypothesis mapFn_read_only : read_only mapFn.
Implicit Types (s : state T R E) (aw : list nat).

Local Abbreviation N := (length arr).
Local Abbreviation inv_core := (inv_core mapFn arr).
Local Abbreviation worker_ok := (worker_ok mapFn arr).
Local Abbreviation inv := (inv mapFn arr).

Lemma inv_core_perm aw aw' s : aw ≡ₚ aw' → inv_core aw s → inv_core aw' s.
Proof. intros Hp [????????]. split; try done. by rewrite <-Hp. Qed.

Lemma inv_core_set_workers aw ws s : inv_core aw s → inv_core aw (set_workers ws s).
Proof. by intros []. Qed.

Lemma worker_ok_mono s s' w :
  (gen s = Some Completed →
   gen s' = Some Completed ∧ length (calls s') = length (calls s)) →
  worker_ok s w → worker_ok s' w.
Proof.
  intros Hg. destruct w as [[value i k pending|k|k x]|]; simpl; try done.
  - intros Hc. by apply Hg.
  - intros [Hc Hbad]. destruct (Hg Hc) as [Hc' Hlen]. by rewrite Hlen.
Qed.

Lemma expected_lookup i value :
  arr !! i = Some value →
  expected mapFn arr !! i = Some (settled (mapFn value i arr).1).
Proof. intros Hi. unfold expected. by rewrite list_lookup_imap, Hi. Qed.

Lemma expected_length : length (expected mapFn arr) = N.
Proof. apply length_imap. Qed.

(** Once round the loop head. *)
Lemma worker_loop_spec aw k s w s' :
  inv_core aw s →
  worker_loop mapFn k s = (w, s') →
  inv_core (aw ++ option_list (windex (Some w))) s'
  ∧ worker_ok s' (Some w)
  ∧ workers s' = workers s
  ∧ (gen s = Some Completed →
     gen s' = Some Completed ∧ length (calls s') = length (calls s))
  ∧ length (calls s') = length (calls s) + length (option_list (windex (Some w)))
  ∧ (gen s' = Some Completed →
     gen s = Some Completed ∨ length (calls s') = N ∨ ∃ x, w = failed k x).
Proof.
  intros [Harr (g & Hg & Hdisj) Hbound Hcalls Hprinted Hperm Hlen Hslots].
  unfold worker_loop. rewrite Hg, Harr.
  assert (handed N g ≤ N) as Hle by (destruct Hdisj as [->| ->]; [done|simpl; lia]).
  rewrite gen_next_handed by done.
  set (c := handed N g) in *.
  destruct (arr !! c) as [value|] eqn:Hc.
  - pose proof (lookup_lt_Some _ _ _ Hc) as Hlt.
    assert (c = length (calls s)) as Hcc.
    { destruct Hdisj as [Heq| ->]; [done|]. subst c. simpl in Hlt. lia. }
    assert (g ≠ Completed) as Hg' by (intros ->; subst c; simpl in Hlt; lia).
    destruct (to_string value) as [label|x] eqn:Hts.
    + rewrite runMapFn_settled, mapFn_read_only. intros [= <- <-].
      cbn [windex option_list]. split_and!.
      * split; cbn [array gen result calls writes]; rewrite ?length_app; simpl.
        -- done.
        -- eexists. split; [done|]. left. simpl. lia.
        -- lia.
        -- replace (length (calls s) + 1) with (S (length (calls s))) by lia.
           rewrite (take_S_r _ _ (value, c)) by (by rewrite <-Hcc, items_lookup, Hc).
           by rewrite <-Hcalls.
        -- intros i value' Hi Hvalue'.
           destruct (decide (i = c)) as [->|Hne].
           ++ rewrite Hc in Hvalue'. injection Hvalue' as <-. eauto.
           ++ apply (Hprinted i); [lia|done].
        -- replace (length (calls s) + 1) with (S (length (calls s))) by lia.
           rewrite seq_S, app_assoc, Hperm. simpl. by rewrite Hcc.
        -- lia.
        -- done.
      * split; [|eauto]. eexists. split; [done|]. by apply expected_lookup.
      * done.
      * by intros [= ->].
      * cbn [calls]. rewrite length_app. simpl. lia.
      * done.
    + intros [= <- <-]. cbn [windex option_list]. rewrite app_nil_r. split_and!.
      * split; cbn [set_gen array gen result calls writes]; try done. eauto.
      * split; [done|]. exists value. cbn [set_gen calls]. by rewrite <-Hcc.
      * done.
      * done.
      * simpl. lia.
      * intros _. right. right. eauto.
  - apply lookup_ge_None_1 in Hc. assert (c = N) as Hc' by lia.
    intros [= <- <-]. cbn [windex option_list]. rewrite app_nil_r. split_and!.
    + split; cbn [set_gen array gen result calls writes]; try done. eauto.
    + done.
    + done.
    + done.
    + simpl. lia.
    + intros _. destruct Hdisj as [Heq| ->]; [|by left].
      right. left. cbn [set_gen calls]. lia.
Qed.

(** The write of line 66. *)
Lemma write_result_spec aw aw' i r s :
  inv_core aw s →
  aw ≡ₚ i :: aw' →
  expected mapFn arr !! i = Some r →
  inv_core aw' (write_result i r s).
Proof.
  intros [Harr Hg Hbound Hcalls Hprinted Hperm Hlen Hslots] Haw Hexp.
  assert (i < length (calls s)) as Hi.
  { assert (i ∈ seq 0 (length (calls s))) as Hin.
    { rewrite <-Hperm, Haw. apply elem_of_app. right. by left. }
    apply elem_of_seq in Hin. lia. }
  split; simpl; try done.
  - rewrite <-Hperm, Haw. solve_Permutation.
  - rewrite js_set_length. lia.
  - intros j. rewrite js_get_set, Hslots.
    destruct (decide (j = i)) as [->|Hne].
    + rewrite decide_True; [done|]. apply elem_of_app. right. by apply list_elem_of_singleton.
    + destruct (decide (j ∈ writes s)) as [Hj|Hj].
      * rewrite decide_True; [done|]. apply elem_of_app. by left.
      * rewrite decide_False; [done|].
        rewrite elem_of_app, list_elem_of_singleton. by intros [?|?].
Qed.

(** A worker continues after its [await]. *)
Lemma step_inv p s s' :
  inv s →
  step mapFn p s = Some s' →
  inv s'
  ∧ remaining N s = S (remaining N s')
  ∧ (has_worker s → has_worker s').
Proof.
  intros (Hcore & Hws & Hclosed). unfold step, resume.
  destruct (promise_all (workers s)); [done|].
  destruct (workers s !! p) as [[[value i k pending| |]|]|] eqn:Hp; try done.
  pose proof (Forall_lookup_1 _ _ _ _ Hws Hp) as [(r & -> & Hexp) [label Hts]].
  rewrite Hts.
  destruct (awaited_insert (workers s) p _ (Some (finished 0)) Hp)
    as (aw & Haw & _).
  assert (inv_core aw (write_result i r s)) as Hcore1.
  { eapply write_result_spec; [exact Hcore|exact Haw|exact Hexp]. }
  destruct (worker_loop mapFn (S k) (write_result i r s)) as [w s2] eqn:Hloop.
  destruct (worker_loop_spec _ _ _ _ _ Hcore1 Hloop)
    as (Hcore2 & Hw & Hsame & Hmono & Hcalls & Hwhy).
  intros [= <-]. simpl in Hsame. rewrite Hsame.
  destruct (awaited_insert (workers s) p _ (Some w) Hp) as (aw' & Haw' & Hins).
  assert (aw' ≡ₚ aw) as Haws.
  { rewrite Haw in Haw'. simpl in Haw'. by apply (inj (cons i)) in Haw'. }
  split_and!.
  - split_and!; cbn [workers set_workers].
    + apply inv_core_set_workers. eapply inv_core_perm; [|exact Hcore2].
      by rewrite Hins, Haws.
    + apply Forall_insert; [|done].
      eapply Forall_impl; [exact Hws|]. intros w0. by apply worker_ok_mono.
    + intros Hg'. destruct (Hwhy Hg') as [Hg|[Hall|[x ->]]].
      * destruct (Hmono Hg) as [_ Hlen]. simpl in Hlen.
        destruct (Hclosed Hg) as [Hall|(p' & k' & x & Hp')].
        -- left. cbn [calls set_workers]. lia.
        -- right. exists p', k', x. cbn [workers set_workers].
           rewrite list_lookup_insert_ne; [done|]. intros ->. congruence.
      * by left.
      * right. exists p, (S k), x. cbn [workers set_workers].
        apply list_lookup_insert_eq. by eapply lookup_lt_Some.
  - unfold remaining. cbn [workers calls set_workers].
    pose proof (ic_bound _ _ _ _ Hcore2) as Hle.
    set (new := option_list (windex (Some w))) in *.
    rewrite Hins, Haw, Haws, !length_app. simpl in *. lia.
  - intros _. exists p, w. cbn [workers set_workers].
    apply list_lookup_insert_eq. by eapply lookup_lt_Some.
Qed.

(** Lines 113-115, one round. *)
Lemma spawn_inv s w s' :
  inv s →
  worker mapFn s = (w, s') →
  inv (set_workers (workers s' ++ [Some w]) s')
  ∧ remaining N (set_workers (workers s' ++ [Some w]) s') = remaining N s
  ∧ has_worker (set_workers (workers s' ++ [Some w]) s').
Proof.
  intros (Hcore & Hws & Hclosed) Hloop. unfold worker in Hloop.
  destruct (worker_loop_spec _ _ _ _ _ Hcore Hloop)
    as (Hcore2 & Hw & Hsame & Hmono & Hcalls & Hwhy).
  rewrite Hsame. split_and!.
  - split_and!; cbn [workers set_workers].
    + apply inv_core_set_workers. by rewrite awaited_snoc.
    + apply Forall_app. split; [|by apply Forall_singleton].
      eapply Forall_impl; [exact Hws|]. intros w0. by apply worker_ok_mono.
    + intros Hg'. destruct (Hwhy Hg') as [Hg|[Hall|[x ->]]].
      * destruct (Hmono Hg) as [_ Hlen].
        destruct (Hclosed Hg) as [Hall|(p' & k' & x & Hp')].
        -- left. cbn [calls set_workers]. lia.
        -- right. exists p', k', x. cbn [workers set_workers].
           by apply lookup_app_l_Some.
      * by left.
      * right. exists (length (workers s)), 0, x. cbn [workers set_workers].
        by apply list_lookup_middle.
  - unfold remaining. cbn [workers calls set_workers].
    rewrite awaited_snoc, length_app.
    pose proof (ic_bound _ _ _ _ Hcore2) as Hle. lia.
  - exists (length (workers s)), w. cbn [workers set_workers].
    by apply list_lookup_middle.
Qed.

Lemma launch_inv n : ∀ s,
  inv s →
  inv (launch mapFn n s)
  ∧ remaining N (launch mapFn n s) = remaining N s
  ∧ (0 < n → has_worker (launch mapFn n s)).
Proof.
  induction n as [|n IH]; intros s Hinv; simpl.
  - split_and!; [done|done|lia].
  - destruct (worker mapFn s) as [w s'] eqn:Hw.
    destruct (spawn_inv _ _ _ Hinv Hw) as (Hinv' & Hrem & Hhas).
    destruct (IH _ Hinv') as (Hinv'' & Hrem' & Hhas').
    split_and!; [done|congruence|]. intros _.
    destruct n as [|n]; [exact Hhas|]. apply Hhas'. lia.
Qed.

Lemma init_inv L (s : state T R E) :
  s = set_workers (replicate L None) (set_gen mapParams (init arr)) →
  inv s ∧ remaining N s = N.
Proof.
  intros ->. split; [split_and!|].
  - cbn [workers set_workers]. rewrite awaited_replicate.
    split; simpl; try done; [by eexists; split; [done|left]|lia|].
    intros i value Hi. lia.
  - cbn [workers set_workers]. by apply Forall_replicate.
  - by intros [=].
  - unfold remaining. cbn [workers set_workers].
    rewrite awaited_replicate. simpl. lia.
Qed.

(** How [Promise.all] settles in a waiting state with a worker. *)
Lemma settled_normal s :
  inv s → has_worker s →
  promise_all (workers s) = Some (normal ()) →
  array s = arr
  ∧ result s = Some <$> expected mapFn arr
  ∧ calls s = items arr
  ∧ writes s ≡ₚ seq 0 N
  ∧ first_unprintable (E:=E) arr = None
  ∧ remaining N s = 0.
Proof.
  intros (Hcore & Hws & Hclosed) (p & w & Hp) Hall.
  pose proof (promise_all_cases (workers s)) as Hcases. rewrite Hall in Hcases.
  destruct Hcases as [Haw Hfin].
  assert (length (calls s) = N) as Hlen.
  { pose proof (Forall_lookup_1 _ _ _ _ Hfin Hp) as [?|[k [= ->]]]; [done|].
    pose proof (Forall_lookup_1 _ _ _ _ Hws Hp) as Hg. simpl in Hg.
    destruct (Hclosed Hg) as [?|(p' & k' & x & Hp')]; [done|].
    by pose proof (Forall_lookup_1 _ _ _ _ Hfin Hp') as [?|[? ?]]. }
  destruct Hcore as [Harr _ _ Hcalls Hprinted Hperm Hrlen Hslots].
  rewrite Haw, app_nil_r, Hlen in Hperm. rewrite Hlen in *.
  split_and!; try done.
  - apply js_array_full; rewrite expected_length; [done|].
    intros i Hi. rewrite Hslots, decide_True; [done|].
    rewrite Hperm. apply elem_of_seq. lia.
  - rewrite Hcalls. apply take_ge. by rewrite items_length.
  - apply first_unprintable_None. intros i value Hi.
    apply (Hprinted i); [|done]. by eapply lookup_lt_Some.
  - unfold remaining. rewrite Hlen, Haw. simpl. lia.
Qed.

Lemma settled_throw s x :
  inv s →
  promise_all (workers s) = Some (throw x) →
  first_unprintable arr = Some x.
Proof.
  intros (Hcore & Hws & _) Hall.
  pose proof (promise_all_cases (workers s)) as Hcases. rewrite Hall in Hcases.
  destruct Hcases as (p & k & Hp).
  pose proof (Forall_lookup_1 _ _ _ _ Hws Hp) as [_ (value & Hvalue & Hts)].
  eapply first_unprintable_Some; [exact Hvalue|exact Hts|].
  by destruct Hcore.
Qed.

(** A call that is still pending has a worker that can continue. *)
Lemma progress s :
  promise_all (workers s) = None → ∃ p s', step mapFn p s = Some s'.
Proof.
  intros Hall. pose proof (promise_all_cases (workers s)) as Hcases.
  rewrite Hall in Hcases.
  destruct (awaited (workers s)) as [|i aw] eqn:Heq; [done|].
  destruct (awaited_lookup (workers s) i) as (p & value & k & pending & Hp).
  { rewrite Heq. by left. }
  exists p. unfold step, resume. rewrite Hall, Hp.
  destruct pending as [r|reason]; [|eauto].
  destruct (to_string value); [|eauto].
  destruct (worker_loop _ _ _). eauto.
Qed.

Lemma run_inv sched : ∀ s s',
  inv s →
  run mapFn sched s = Some s' →
  inv s'
  ∧ remaining N s = length sched + remaining N s'
  ∧ (has_worker s → has_worker s').
Proof.
  induction sched as [|p sched IH]; intros s s' Hinv; simpl.
  - by intros [= <-].
  - destruct (step mapFn p s) as [s1|] eqn:Hstep; [|done]. intros Hrun.
    destruct (step_inv _ _ _ Hinv Hstep) as (Hinv1 & Hrem & Hhas).
    destruct (IH _ _ Hinv1 Hrun) as (Hinv' & Hrem' & Hhas').
    split_and!; [done|lia|auto].
Qed.

(** Every state while waiting reaches, whatever the order, a state in
    which [Promise.all] has settled. *)
Lemma run_complete k : ∀ s,
  inv s → remaining N s ≤ k →
  ∃ sched s', run mapFn sched s = Some s'
              ∧ is_Some (promise_all (workers s')).
Proof.
  induction k as [|k IH]; intros s Hinv Hk.
  - exists [], s. split; [done|].
    destruct (promise_all (workers s)) eqn:Hall; [done|].
    pose proof (promise_all_cases (workers s)) as Hcases. rewrite Hall in Hcases.
    unfold remaining in Hk. destruct (awaited (workers s)); [done|simpl in Hk; lia].
  - destruct (promise_all (workers s)) eqn:Hall.
    + exists [], s. split; [done|]. by rewrite Hall.
    + destruct (progress _ Hall) as (p & s1 & Hstep).
      destruct (step_inv _ _ _ Hinv Hstep) as (Hinv1 & Hrem & _).
      destruct (IH s1 Hinv1) as (sched & s' & Hrun & Hdone); [lia|].
      exists (p :: sched), s'. simpl. by rewrite Hstep.
Qed.
End invariant.

Lemma run_app {T R E} `{!ToString T E} (mapFn : AsyncMapFn T R E) sched sched' s :
  run mapFn (sched ++ sched') s = run mapFn sched s ≫= run mapFn sched'.
Proof.
  revert s. induction sched as [|p sched IH]; intros s; simpl; [done|].
  by destruct (step mapFn p s).
Qed.

(** ** The orchestrator *)

Section orchestrator.
Context {T R E : Type} `{!ToString T E} (mapFn : AsyncMapFn T R E).
Implicit Types (arr : list T) (limit : option number) (s : state T R E).

Lemma mapAllSettled_empty limit sched :
  mapAllSettled mapFn [] limit sched =
    match sched with
    | [] => Some (normal [], init [])
    | _ => None
    end.
Proof. done. Qed.

Lemma run_no_workers sched s s' :
  workers s = [] → run mapFn sched s = Some s' → sched = [] ∧ s' = s.
Proof.
  intros Hws. destruct sched as [|p sched]; simpl; [by intros [= <-]|].
  unfold step. by rewrite Hws.
Qed.

Lemma non_negative_launches (N : nat) limit :
  non_negative limit →
  new_Array (Math_min (default (Int (Z.of_nat N)) limit) N)
  = Some (workers_launched N limit).
Proof.
  unfold workers_launched.
  destruct limit as [[l| | | |]|]; simpl; try done; intros Hl;
    by rewrite decide_True by lia.
Qed.

Lemma positive_launches (N : nat) limit :
  positive limit → N ≠ 0 → 0 < workers_launched N limit.
Proof.
  unfold workers_launched.
  destruct limit as [[l| | | |]|]; simpl; try done; intros Hl HN;
    rewrite decide_True by lia; simpl; lia.
Qed.

Lemma positive_non_negative limit : positive limit → non_negative limit.
Proof. destruct limit as [[l| | | |]|]; simpl; try done. lia. Qed.

Lemma sync_launch arr limit :
  arr ≠ [] → non_negative limit →
  mapAllSettled_sync mapFn arr limit
  = (AwaitAll,
     launch mapFn (workers_launched (length arr) limit)
       (set_workers (replicate (workers_launched (length arr) limit) None)
          (set_gen mapParams (init arr)))).
Proof.
  intros Harr Hlimit. unfold mapAllSettled_sync.
  rewrite decide_False by (by destruct arr).
  by rewrite non_negative_launches.
Qed.

Lemma sync_inv arr limit :
  read_only mapFn → arr ≠ [] → non_negative limit →
  ∃ s0, mapAllSettled_sync mapFn arr limit = (AwaitAll, s0)
        ∧ inv mapFn arr s0
        ∧ remaining (length arr) s0 = length arr
        ∧ (positive limit → has_worker s0).
Proof.
  intros Hro Harr Hlimit. rewrite sync_launch by done.
  eexists. split; [done|].
  destruct (init_inv mapFn arr (workers_launched (length arr) limit) _ eq_refl)
    as [Hinv Hrem].
  destruct (launch_inv mapFn arr Hro (workers_launched (length arr) limit) _ Hinv)
    as (Hinv' & Hrem' & Hhas).
  split_and!; [done|congruence|].
  intros Hpos. apply Hhas, positive_launches; [done|by destruct arr].
Qed.

(** With at least one worker the promise settles in one way: fulfilled,
    after one step per item, with the settled results of the direct map,
    every item having been handed to the transform once and every slot
    written once; or, where an item does not convert to a string, rejected
    with what the conversion of the first such item throws. *)
Lemma mapAllSettled_sound arr limit sched c s :
  read_only mapFn → arr ≠ [] → positive limit →
  mapAllSettled mapFn arr limit sched = Some (c, s) →
  c = outcome mapFn arr
  ∧ (first_unprintable (E:=E) arr = None →
     calls s = items arr
     ∧ writes s ≡ₚ seq 0 (length arr)
     ∧ length sched = length arr
     ∧ promise_all (workers s) = Some (normal ())).
Proof.
  intros Hro Harr Hpos. unfold mapAllSettled.
  destruct (sync_inv arr limit Hro Harr (positive_non_negative _ Hpos))
    as (s0 & -> & Hinv & Hrem & Hhas).
  destruct (run mapFn sched s0) as [s1|] eqn:Hrun; [|done].
  destruct (run_inv mapFn arr Hro _ _ _ Hinv Hrun) as (Hinv1 & Hrem1 & Hhas1).
  destruct (promise_all (workers s1)) as [[[]|x]|] eqn:Hall; [| |done].
  - intros [= <- <-].
    destruct (settled_normal mapFn arr _ Hinv1 (Hhas1 (Hhas Hpos)) Hall)
      as (Ha & Hr & Hc & Hw & Hp & Hz).
    unfold outcome. rewrite Hp, Hr. split; [done|]. intros _.
    split_and!; [done..|lia|done].
  - intros [= <- <-].
    pose proof (settled_throw mapFn arr _ _ Hinv1 Hall) as Hx.
    unfold outcome. rewrite Hx. split; [done|]. congruence.
Qed.

(** Every execution is a prefix of one that settles, and none has more
    steps than there are items. *)
Lemma mapAllSettled_complete arr limit sched s1 :
  read_only mapFn → (arr ≠ [] → non_negative limit) →
  reach mapFn arr limit sched = Some s1 →
  length sched ≤ length arr
  ∧ ∃ sched' c s,
      mapAllSettled mapFn arr limit (sched ++ sched') = Some (c, s).
Proof.
  intros Hro Hlimit. unfold reach. destruct arr as [|value arr'].
  { intros Hrun. apply run_no_workers in Hrun as [-> ->]; [|done].
    split; [done|]. by exists [], (normal []), (init []). }
  unfold mapAllSettled.
  destruct (sync_inv (value :: arr') limit Hro) as (s0 & -> & Hinv & Hrem & _);
    [done|by apply Hlimit|].
  cbn [snd]. intros Hrun.
  destruct (run_inv mapFn _ Hro _ _ _ Hinv Hrun) as (Hinv1 & Hrem1 & _).
  split; [lia|].
  destruct (run_complete mapFn _ Hro _ s1 Hinv1 (le_n _))
    as (sched' & s' & Hrun' & [c' Hall]).
  exists sched'. rewrite run_app, Hrun. simpl. rewrite Hrun', Hall.
  destruct c'; eauto.
Qed.






End orchestrator.

(** ** Limits that launch no worker *)

Section no_worker.
Context {T R E : Type} `{!ToString T E} (mapFn : AsyncMapFn T R E).
Implicit Types (arr : list T).

(** Limit 0: [new Array(0)] is empty, the loop of lines 113-115 does not
    run, and [Promise.all] of no promise is fulfilled. *)
Lemma mapAllSettled_limit_0_eq arr sched :
  arr ≠ [] →
  mapAllSettled mapFn arr (Some (Int 0)) sched =
    match sched with
    | [] => Some (normal [], set_workers [] (set_gen mapParams (init arr)))
    | _ => None
    end.
Proof.
  intros Harr. unfold mapAllSettled, mapAllSettled_sync.
  rewrite decide_False by (by destruct arr). simpl.
  replace (0 `min` Z.of_nat (length arr))%Z with 0%Z by lia. simpl.
  by destruct sched.
Qed.

(** A negative limit: [new Array] throws. *)
Lemma mapAllSettled_negative_eq arr (limit : Z) sched :
  arr ≠ [] → (limit < 0)%Z →
  mapAllSettled mapFn arr (Some (Int limit)) sched =
    match sched with
    | [] => Some (throw RangeError, set_gen mapParams (init arr))
    | _ => None
    end.
Proof.
  intros Harr Hlimit. unfold mapAllSettled, mapAllSettled_sync.
  rewrite decide_False by (by destruct arr). simpl.
  by rewrite decide_False by lia.
Qed.

(** A limit above the length is cut down to the length at line 110. *)
Lemma mapAllSettled_above_eq arr (limit : Z) sched :
  (Z.of_nat (length arr) < limit)%Z →
  mapAllSettled mapFn arr (Some (Int limit)) sched
  = mapAllSettled mapFn arr (Some (Int (Z.of_nat (length arr)))) sched.
Proof.
  intros Hlimit. unfold mapAllSettled, mapAllSettled_sync. simpl.
  by rewrite Z.min_r, Z.min_id by lia.
Qed.
End no_worker.

(** ** What the call returns *)

Section returns.
Context {T R E : Type} `{!ToString T E} (mapFn : AsyncMapFn T R E) (arr : list T)
  (limit : option number).
Hypothesis mapFn_read_only : read_only mapFn.
Hypothesis items_printable : printable E arr.
Hypothesis some_worker : arr ≠ [] → positive limit.

Lemma mapAllSettled_result sched c s :
  mapAllSettled mapFn arr limit sched = Some (c, s) →
  c = normal (Some <$> expected mapFn arr)
  ∧ calls s = items arr
  ∧ writes s ≡ₚ seq 0 (length arr).
Proof.
  destruct (decide (arr = [])) as [->|Harr].
  { rewrite mapAllSettled_empty. destruct sched; [|done]. by intros [= <- <-]. }
  intros Hs.
  destruct (mapAllSettled_sound mapFn arr limit sched c s mapFn_read_only Harr
              (some_worker Harr) Hs) as (-> & Hrest).
  destruct (Hrest items_printable) as (? & ? & _).
  unfold outcome. by rewrite items_printable.
Qed.

Lemma mapAllSettled_returns : returns mapFn arr limit.
Proof.
  intros sched s1 Hreach.
  destruct (mapAllSettled_complete mapFn arr limit sched s1 mapFn_read_only)
    as (_ & sched' & c & s & Hs); [|done|].
  { intros Harr. by apply positive_non_negative, some_worker. }
  destruct (mapAllSettled_result _ _ _ Hs) as (-> & _). eauto.
Qed.


End returns.

(** ** Examples: the scenarios of the specification *)

Example scenario_limit_3 :
  ∃ s, mapAllSettled double [10; 20; 30]%Z (Some (Int 3)) [5; 3; 4]
       = Some (normal [Some (fulfilled 20); Some (fulfilled 40); Some (fulfilled 60)]%Z, s)
       ∧ writes s = [2; 0; 1].
Proof. eexists. split; [vm_compute; reflexivity|done]. Qed.

Example scenario_limit_1 :
  ∃ s, mapAllSettled double [10; 20; 30]%Z (Some (Int 1)) [1; 1; 1]
       = Some (normal [Some (fulfilled 20); Some (fulfilled 40); Some (fulfilled 60)]%Z, s)
       ∧ workers s = [None; Some (finished 3)].
Proof. eexists. split; [vm_compute; reflexivity|done]. Qed.

Example scenario_throw_on_2 :
  ∃ s, mapAllSettled throw_on_2 [1; 2; 3]%Z (Some (Int 2)) [3; 2; 3]
       = Some (normal [Some (fulfilled 10%Z); Some (rejected "two"%string);
                       Some (fulfilled 30%Z)], s).
Proof. eexists. vm_compute. reflexivity. Qed.

Example scenario_limit_10 :
  ∃ s, mapAllSettled double [10; 20; 30]%Z (Some (Int 10)) [3; 4; 5]
       = Some (normal [Some (fulfilled 20); Some (fulfilled 40); Some (fulfilled 60)]%Z, s)
       ∧ workers s = [None; None; None;
                      Some (finished 1); Some (finished 1); Some (finished 1)].
Proof. eexists. split; [vm_compute; reflexivity|done]. Qed.

(** A transform that appends to the array makes the generator, which reads
    the array when asked, hand out the appended item too. *)
Example writing_transform :
  ∃ s, mapAllSettled push_at_0 [7; 8]%Z (Some (Int 1)) [1; 1; 1]
       = Some (normal [Some (fulfilled 7); Some (fulfilled 8); Some (fulfilled 7)]%Z, s)
       ∧ array s = [7; 8; 7]%Z.
Proof. eexists. split; [vm_compute; reflexivity|done]. Qed.

(** An item that does not convert to a string makes the worker that is
    handed it throw at line 65, outside the try/catch of [runMapFn]: the
    generator is closed and the call rejects. *)
Example unprintable_item_rejects :
  ∃ s, mapAllSettled item_index [Num 1; Sym; Num 3] (Some (Int 1)) [1]
       = Some (throw TypeError, s)
       ∧ result s = [Some (fulfilled 0)]
       ∧ workers s = [None; Some (failed 1 TypeError)]
       ∧ gen s = Some Completed
       ∧ calls s = [(Num 1, 0)].
Proof. eexists. split; [vm_compute; reflexivity|done]. Qed.

Example unprintable_item_rejects_at_launch :
  ∃ s, mapAllSettled item_index [Num 1; Sym; Num 3] None []
       = Some (throw TypeError, s)
       ∧ workers s = [None; None; None;
                      Some (awaiting (Num 1) 0 0 (normal (fulfilled 0)));
                      Some (failed 0 TypeError); Some (finished 0)].
Proof. eexists. split; [vm_compute; reflexivity|done]. Qed.

(** A limit that is not integral is no array length, unless it is above the
    length of the input and line 110 cuts it down. *)
Example fractional_limit :
  (∃ s, mapAllSettled double [10; 20; 30]%Z (Some (Between 2)) []
        = Some (throw RangeError, s))
  ∧ (∃ s, mapAllSettled double [10; 20; 30]%Z (Some NaN) []
          = Some (throw RangeError, s))
  ∧ mapAllSettled_sync double [10; 20; 30]%Z (Some (Between 3))
    = mapAllSettled_sync double [10; 20; 30]%Z (Some (Int 3)).
Proof. split_and!; [by eexists..|done]. Qed.

(** ** The claims *)

(** C4. For every transform and every work item, [runMapFn] completes
    normally with a settled result and never throws: fulfilled with the value
    when the transform returns a promise that is fulfilled, rejected with the
    reason, as thrown, when the transform throws or its promise rejects. *)
Theorem runMapFn_never_throws {T R E} `{!ToString T E}
    (mapFn : AsyncMapFn T R E)
    (value : T) (index : nat) (array : list T) :
  (runMapFn mapFn value index array).1 =
    normal match (mapFn value index array).1 with
           | normal (resolves v) => fulfilled v
           | normal (rejects reason) => rejected reason
           | throw reason => rejected reason
           end.
Proof. by rewrite runMapFn_settled. Qed.

(** C7. On an array of length N the generator of [mapParams] hands out, call
    after call, the pairs (value, index) of the array in ascending order of
    the index, each once, and answers every call after the N-th with
    exhaustion. *)
Theorem mapParams_each_item_once {T} (array : list T) (k : nat) :
  gen_take array mapParams (length array + k)
  = imap (λ index value, Some (value, index)) array ++ replicate k None.
Proof.
  rewrite gen_take_handed by (simpl; lia). unfold mapParams. cbn [handed].
  rewrite drop_0, take_ge by (rewrite items_length; lia).
  f_equal; [|f_equal; lia].
  unfold items. apply list_eq. intros i.
  rewrite list_lookup_fmap, !list_lookup_imap. by destruct (array !! i).
Qed.

(** C8. On the empty input, whatever the limit, [mapAllSettled] returns at
    line 105 with the empty result: no generator has been made, no worker
    launched, the transform not called, and no step of the event loop is
    needed. *)
Theorem mapAllSettled_empty_input {T R E} `{!ToString T E}
    (mapFn : AsyncMapFn T R E)
    (concurrentLimit : option number) :
  ∃ s, mapAllSettled_sync mapFn [] concurrentLimit = (Returned, s)
       ∧ mapAllSettled mapFn [] concurrentLimit [] = Some (normal [], s)
       ∧ result s = [] ∧ gen s = None ∧ workers s = [] ∧ calls s = [].
Proof. by exists (init []). Qed.

(** C10. On a non-empty input, a requested limit of exactly 0 makes
    [mapAllSettled] return the empty array (length 0, not N): no worker is
    launched and the transform is never called. *)
Theorem mapAllSettled_limit_0 {T R E} `{!ToString T E}
    (mapFn : AsyncMapFn T R E) (arr : list T) :
  arr ≠ [] →
  (∃ s, mapAllSettled mapFn arr (Some (Int 0)) [] = Some (normal [], s))
  ∧ ∀ sched c s,
      mapAllSettled mapFn arr (Some (Int 0)) sched = Some (c, s) →
      c = normal [] ∧ workers s = [] ∧ calls s = [].
Proof.
  intros Harr. split.
  - eexists. by rewrite mapAllSettled_limit_0_eq.
  - intros sched c s. rewrite mapAllSettled_limit_0_eq by done.
    destruct sched; [|done]. by intros [= <- <-].
Qed.

Lemma mapAllSettled_limit_0_witness :
  [10; 20; 30]%Z ≠ []
  ∧ (∃ s, mapAllSettled double [10; 20; 30]%Z (Some (Int 0)) [] = Some (normal [], s))
  ∧ ∀ sched c s,
      mapAllSettled double [10; 20; 30]%Z (Some (Int 0)) sched = Some (c, s) →
      c = normal [] ∧ workers s = [] ∧ calls s = [].
Proof.
  split; [discriminate|].
  apply (mapAllSettled_limit_0 double [10; 20; 30]%Z). discriminate.
Defined.



(** C1, as amended.  On a non-empty input of length N the requested limit is
    cut down to N and not raised to 1: a limit above N behaves as the limit
    N; with the limit 0 the call is fulfilled with the empty array and in no
    other way; with a negative limit the call rejects with a RangeError and
    settles in no other way. *)
Theorem concurrentLimit_clamped_above_only {T R E} `{!ToString T E}
    (mapFn : AsyncMapFn T R E)
    (arr : list T) (limit : Z) :
  arr ≠ [] →
  ((Z.of_nat (length arr) < limit)%Z →
     (∀ sched, mapAllSettled mapFn arr (Some (Int limit)) sched
               = mapAllSettled mapFn arr (Some (Int (Z.of_nat (length arr)))) sched)
     ∧ same_behaviour mapFn arr (Some (Int limit)) (Some (Int (Z.of_nat (length arr)))))
  ∧ (limit = 0%Z → ∀ c, settles mapFn arr (Some (Int limit)) c ↔ c = normal [])
  ∧ ((limit < 0)%Z → ∀ c, settles mapFn arr (Some (Int limit)) c ↔ c = throw RangeError).
Proof.
  intros Harr. split_and!.
  - intros Hlimit. split; [intros sched; by apply mapAllSettled_above_eq|].
    intros c. unfold settles.
    split; intros (sched & s & Hs); exists sched, s;
      by rewrite ?mapAllSettled_above_eq in * by done.
  - intros -> c. unfold settles. split.
    + intros (sched & s & Hs). rewrite mapAllSettled_limit_0_eq in Hs by done.
      destruct sched; [|done]. by injection Hs as <- _.
    + intros ->. eexists [], _. by rewrite mapAllSettled_limit_0_eq.
  - intros Hlimit c. unfold settles. split.
    + intros (sched & s & Hs). rewrite mapAllSettled_negative_eq in Hs by done.
      destruct sched; [|done]. by injection Hs as <- _.
    + intros ->. eexists [], _. by rewrite mapAllSettled_negative_eq.
Qed.

Lemma concurrentLimit_clamped_above_only_witness :
  [10; 20; 30]%Z ≠ [] ∧ (Z.of_nat (length [10; 20; 30]%Z) < 10)%Z
  ∧ same_behaviour double [10; 20; 30]%Z (Some (Int 10)) (Some (Int 3))
  ∧ (∀ c, settles double [10; 20; 30]%Z (Some (Int 0)) c ↔ c = normal [])
  ∧ (∀ c, settles double [10; 20; 30]%Z (Some (Int (-1))) c ↔ c = throw RangeError).
Proof.
  split; [discriminate|]. split; [simpl; lia|]. split_and!.
  - apply (concurrentLimit_clamped_above_only double [10; 20; 30]%Z 10%Z);
      [discriminate|simpl; lia].
  - by apply (concurrentLimit_clamped_above_only double [10; 20; 30]%Z 0%Z).
  - apply (concurrentLimit_clamped_above_only double [10; 20; 30]%Z (-1)%Z);
      [discriminate|lia].
Defined.

(** C1, as stated, fails: on [10; 20; 30] the limit 0 does not behave as the
    limit 1, which is 0 clamped into [1, 3]. *)
Lemma limit_0_not_treated_as_1 :
  ¬ same_behaviour double [10; 20; 30]%Z (Some (Int 0)) (Some (Int (clamp 3 0%Z))).
Proof.
  intros Hsame. destruct (Hsame (normal [])) as [Hto _].
  destruct Hto as (sched & s & Hs).
  { eexists [], _. by rewrite mapAllSettled_limit_0_eq. }
  apply mapAllSettled_result in Hs as [[=] _].
  - by intros ???.
  - reflexivity.
  - intros _. vm_compute. discriminate.
Qed.















(** ** Further properties: the workers array and the bound on parallelism *)

Section workers_array.
Context {T R E : Type} `{!ToString T E} (mapFn : AsyncMapFn T R E).
Implicit Types (s : state T R E) (ws : list (option (worker_state T R E))).

Lemma worker_loop_workers k s : workers (worker_loop mapFn k s).2 = workers s.
Proof.
  unfold worker_loop. destruct (gen s) as [g|]; [|done].
  destruct (gen_next (array s) g) as [[[currentValue index]|] g']; [|done].
  destruct (to_string currentValue); [|done].
  by destruct (runMapFn mapFn currentValue index (array s)).
Qed.

Lemma launch_shape L n : ∀ s j,
  workers_shape L j (workers s) →
  workers_shape L (j + n) (workers (launch mapFn n s)).
Proof.
  induction n as [|n IH]; intros s j Hshape; simpl.
  - by rewrite Nat.add_0_r.
  - pose proof (worker_loop_workers 0 s) as Hsame. unfold worker.
    destruct (worker_loop mapFn 0 s) as [w s']. simpl in Hsame.
    replace (j + S n) with (S j + n) by lia. apply IH.
    cbn [workers set_workers]. rewrite Hsame.
    destruct Hshape as (Hlen & Htake & Hdrop). split_and!.
    + rewrite length_app. simpl. lia.
    + by rewrite take_app_le by lia.
    + rewrite drop_app_le by lia. apply Forall_app. split; [done|].
      by apply Forall_singleton.
Qed.

Lemma shape_insert L j ws p w w' :
  workers_shape L j ws → ws !! p = Some (Some w) →
  workers_shape L j (<[p := Some w']> ws).
Proof.
  intros (Hlen & Htake & Hdrop) Hp.
  assert (L ≤ p) as Hle.
  { destruct (decide (L ≤ p)) as [|Hlt]; [done|]. exfalso.
    assert (take L ws !! p = Some (Some w)) as Hp'
      by (by rewrite lookup_take_lt by lia).
    rewrite Htake in Hp'. apply lookup_replicate in Hp' as [? _]. done. }
  split_and!.
  - by rewrite length_insert.
  - by rewrite take_insert_ge.
  - rewrite drop_insert_ge by done. by apply Forall_insert.
Qed.

Lemma step_shape L j p s s' :
  workers_shape L j (workers s) → step mapFn p s = Some s' →
  workers_shape L j (workers s').
Proof.
  intros Hshape. unfold step, resume.
  destruct (promise_all (workers s)); [done|].
  destruct (workers s !! p) as [[[value i k [r|reason]| |]|]|] eqn:Hp; try done.
  - destruct (to_string value).
    + pose proof (worker_loop_workers (S k) (write_result i r s)) as Hsame.
      destruct (worker_loop mapFn (S k) (write_result i r s)) as [w s2].
      simpl in Hsame. intros [= <-]. cbn [workers set_workers]. rewrite Hsame.
      by eapply shape_insert.
    + intros [= <-]. cbn [workers set_workers write_result]. by eapply shape_insert.
  - intros [= <-]. cbn [workers set_workers]. by eapply shape_insert.
Qed.

Lemma run_shape L j sched : ∀ s s',
  workers_shape L j (workers s) → run mapFn sched s = Some s' →
  workers_shape L j (workers s').
Proof.
  induction sched as [|p sched IH]; intros s s' Hshape; simpl; [by intros [= <-]|].
  destruct (step mapFn p s) as [s1|] eqn:Hstep; [|done].
  apply IH. by eapply step_shape.
Qed.

Lemma awaited_holes n : awaited (replicate n (None : option (worker_state T R E))) = [].
Proof. by induction n. Qed.

Lemma awaited_length ws : length (awaited ws) ≤ length ws.
Proof.
  induction ws as [|[[| |]|] ws IH]; simpl; lia.
Qed.

Lemma shape_awaited L j ws : workers_shape L j ws → length (awaited ws) ≤ j.
Proof.
  intros (Hlen & Htake & Hdrop). rewrite <-(take_drop L ws). unfold awaited.
  rewrite omap_app. fold (awaited (take L ws)). rewrite Htake, awaited_holes.
  simpl. etrans; [apply awaited_length|]. rewrite length_drop. lia.
Qed.

Lemma holes_shape L :
  workers_shape L 0 (replicate L (None : option (worker_state T R E))).
Proof.
  split_and!.
  - rewrite length_replicate. lia.
  - by rewrite take_replicate, Nat.min_id.
  - rewrite drop_replicate, Nat.sub_diag. constructor.
Qed.


Lemma sync_shape arr limit :
  arr ≠ [] → non_negative limit →
  workers_shape (workers_launched (length arr) limit)
    (workers_launched (length arr) limit)
    (workers (mapAllSettled_sync mapFn arr limit).2).
Proof.
  intros Harr Hlimit. rewrite sync_launch by done. cbn [snd].
  apply (launch_shape _ _ _ 0). apply holes_shape.
Qed.

End workers_array.



(** X2. On a non-empty input with a limit that is not negative (left out,
    an integer from 0 on, or infinite), the [workers] array has, from
    line 119 on, twice as many entries as workers were launched: [new Array(concurrentLimit)] gives that many holes, and
    [push] puts the promises of the workers behind them. *)
Theorem workers_array_has_leading_holes {T R E} `{!ToString T E}
    (mapFn : AsyncMapFn T R E)
    (arr : list T) (concurrentLimit : option number) (sched : list nat)
    (s : state T R E) :
  arr ≠ [] → non_negative concurrentLimit →
  reach mapFn arr concurrentLimit sched = Some s →
  let L := workers_launched (length arr) concurrentLimit in
  length (workers s) = 2 * L
  ∧ take L (workers s) = replicate L None
  ∧ Forall is_Some (drop L (workers s)).
Proof.
  intros Harr Hlimit Hreach L. unfold reach in Hreach.
  eapply run_shape in Hreach; [|by apply sync_shape].
  destruct Hreach as (Hlen & Htake & Hdrop). split_and!; [lia|done..].
Qed.

Lemma workers_array_has_leading_holes_witness :
  ∃ s, [10; 20; 30]%Z ≠ [] ∧ non_negative (Some (Int 10))
       ∧ reach double [10; 20; 30]%Z (Some (Int 10)) [4] = Some s
       ∧ length (workers s) = 6
       ∧ take 3 (workers s) = replicate 3 None
       ∧ Forall is_Some (drop 3 (workers s)).
Proof.
  eexists. split; [discriminate|]. split; [simpl; lia|].
  split; [vm_compute; reflexivity|].
  apply (workers_array_has_leading_holes double [10; 20; 30]%Z (Some (Int 10)) [4]).
  - discriminate.
  - simpl. lia.
  - vm_compute. reflexivity.
Defined.


(** ** Further properties: the state while the call waits *)

Section waiting.
Context {T R E : Type} `{!ToString T E} (mapFn : AsyncMapFn T R E).
Hypothesis mapFn_read_only : read_only mapFn.
Implicit Types (arr : list T) (s : state T R E).


End waiting.










(** ** Further properties: what is started before the call first waits *)

Section eager_start.
Context {T R E : Type} `{!ToString T E} (mapFn : AsyncMapFn T R E).
Hypothesis mapFn_read_only : read_only mapFn.
Implicit Types (arr : list T) (s : state T R E).



End eager_start.



(** ** Further properties: the counters of the workers *)

Section counters.
Context {T R E : Type} `{!ToString T E} (mapFn : AsyncMapFn T R E).
Implicit Types (s : state T R E) (ws : list (option (worker_state T R E))).

Lemma worker_loop_writes k s : writes (worker_loop mapFn k s).2 = writes s.
Proof.
  unfold worker_loop. destruct (gen s) as [g|]; [|done].
  destruct (gen_next (array s) g) as [[[currentValue index]|] g']; [|done].
  destruct (to_string currentValue); [|done].
  by destruct (runMapFn mapFn currentValue index (array s)).
Qed.


Lemma worker_loop_processed k s :
  processed_of (Some (worker_loop mapFn k s).1) = k.
Proof.
  unfold worker_loop. destruct (gen s) as [g|]; [|done].
  destruct (gen_next (array s) g) as [[[currentValue index]|] g']; [|done].
  destruct (to_string currentValue); [|done].
  by destruct (runMapFn mapFn currentValue index (array s)).
Qed.

Lemma processed_total_insert ws p w w' :
  ws !! p = Some w →
  processed_total (<[p := w']> ws) + processed_of w
  = processed_total ws + processed_of w'.
Proof.
  intros Hp. rewrite insert_take_drop by (by eapply lookup_lt_Some).
  rewrite <-(take_drop_middle ws p w Hp) at 3. unfold processed_total.
  rewrite !sum_list_with_app. simpl. lia.
Qed.

Lemma processed_total_holes n :
  processed_total (replicate n (None : option (worker_state T R E))) = 0.
Proof. induction n as [|n IH]; [done|]. exact IH. Qed.

Lemma launch_counted n : ∀ s,
  processed_total (workers s) = length (writes s) →
  processed_total (workers (launch mapFn n s)) = length (writes (launch mapFn n s)).
Proof.
  induction n as [|n IH]; intros s Hsum; [done|]. cbn [launch].
  pose proof (worker_loop_workers mapFn 0 s) as Hsame.
  pose proof (worker_loop_writes 0 s) as Hwrites.
  pose proof (worker_loop_processed 0 s) as Hzero. unfold worker.
  destruct (worker_loop mapFn 0 s) as [w s']. simpl in *.
  apply IH. cbn [workers set_workers writes]. rewrite Hsame, Hwrites.
  unfold processed_total in *. rewrite sum_list_with_app. simpl. lia.
Qed.

Lemma step_counted p s s' :
  processed_total (workers s) = length (writes s) →
  step mapFn p s = Some s' →
  processed_total (workers s') = length (writes s').
Proof.
  intros Hsum. unfold step, resume.
  destruct (promise_all (workers s)); [done|].
  destruct (workers s !! p) as [[[value i k [r|reason]| |]|]|] eqn:Hp; try done.
  - destruct (to_string value).
    + pose proof (worker_loop_workers mapFn (S k) (write_result i r s)) as Hsame.
      pose proof (worker_loop_writes (S k) (write_result i r s)) as Hwrites.
      pose proof (worker_loop_processed (S k) (write_result i r s)) as Hk.
      destruct (worker_loop mapFn (S k) (write_result i r s)) as [w s2].
      simpl in Hsame, Hwrites, Hk. intros [= <-].
      cbn [workers set_workers writes]. rewrite Hsame, Hwrites, length_app.
      pose proof (processed_total_insert (workers s) p _ (Some w) Hp) as Hins.
      simpl in Hins. rewrite Hk in Hins. simpl. lia.
    + intros [= <-]. cbn [workers set_workers set_gen write_result writes].
      rewrite length_app.
      pose proof (processed_total_insert (workers s) p _
                    (Some (failed (S k) x)) Hp) as Hins.
      simpl in Hins. simpl. lia.
  - intros [= <-]. cbn [workers set_workers set_gen writes].
    pose proof (processed_total_insert (workers s) p _
                  (Some (failed k (Reason reason))) Hp) as Hins.
    simpl in Hins. lia.
Qed.

Lemma run_counted sched : ∀ s s',
  processed_total (workers s) = length (writes s) →
  run mapFn sched s = Some s' →
  processed_total (workers s') = length (writes s').
Proof.
  induction sched as [|p sched IH]; intros s s' Hs; simpl; [by intros [= <-]|].
  destruct (step mapFn p s) as [s1|] eqn:Hstep; [|done].
  apply IH. by eapply step_counted.
Qed.

Lemma reach_counted arr limit sched s :
  reach mapFn arr limit sched = Some s →
  processed_total (workers s) = length (writes s).
Proof.
  unfold reach, mapAllSettled_sync.
  destruct (decide (length arr = 0)).
  { intros Hrun. by apply run_no_workers in Hrun as [_ ->]. }
  destruct (new_Array _) as [L|].
  - cbn [snd]. apply run_counted, launch_counted.
    cbn [workers set_workers writes]. apply processed_total_holes.
  - intros Hrun. by apply run_no_workers in Hrun as [_ ->].
Qed.
End counters.

(** X8. Whatever the transform, the input, the limit and the schedule, in
    every state of a call the counters [processed] of the workers (line 67)
    add up to the number of writes to [result] (line 66) so far; a worker
    that has failed counts with the count it had reached. *)
Theorem processed_counts_writes {T R E} `{!ToString T E}
    (mapFn : AsyncMapFn T R E) (arr : list T) (concurrentLimit : option number)
    (sched : list nat) (s : state T R E) :
  reach mapFn arr concurrentLimit sched = Some s →
  processed_total (workers s) = length (writes s).
Proof. apply reach_counted. Qed.

Lemma processed_counts_writes_witness :
  ∃ s, reach double [10; 20; 30; 40]%Z (Some (Int 2)) [3; 3] = Some s
       ∧ workers s = [None; None;
                      Some (awaiting 10%Z 0 0 (normal (fulfilled 20%Z)));
                      Some (awaiting 40%Z 3 2 (normal (fulfilled 80%Z)))]
       ∧ processed_total (workers s) = length (writes s).
Proof.
  eexists. split; [vm_compute; reflexivity|]. split; [reflexivity|].
  apply (processed_counts_writes double [10; 20; 30; 40]%Z (Some (Int 2)) [3; 3]).
  vm_compute. reflexivity.
Defined.



(** ** Further properties: one worker *)

Section one_worker.
Context {T R E : Type} `{!ToString T E} (mapFn : AsyncMapFn T R E).
Hypothesis mapFn_read_only : read_only mapFn.
Implicit Types (arr : list T) (s : state T R E).



End one_worker.



(** ** Further properties: the generator and an array that grows *)

Section growth.
Context {T : Type}.
Implicit Types (array more : list T).

Lemma gen_after_S array n : ∀ g,
  gen_after array g (S n) = (gen_next array (gen_after array g n)).2.
Proof.
  induction n as [|n IH]; intros g; [done|]. exact (IH (gen_next array g).2).
Qed.

Lemma gen_after_yield array n : ∀ i,
  S i + n ≤ length array →
  gen_after array (SuspendedYield i) n = SuspendedYield (i + n).
Proof.
  induction n as [|n IH]; intros i Hle; simpl.
  - by rewrite Nat.add_0_r.
  - unfold mapParams_loop.
    destruct (lookup_lt_is_Some_2 array (S i)) as [value ->]; [lia|]. simpl.
    rewrite IH by lia. f_equal. lia.
Qed.

(** After as many calls as the array has items the generator is suspended,
    not completed. *)
Lemma gen_after_all array :
  handed (length array) (gen_after array mapParams (length array)) = length array
  ∧ gen_after array mapParams (length array) ≠ Completed.
Proof.
  destruct array as [|value array']; [done|]. simpl.
  rewrite gen_after_yield by (simpl; lia). done.
Qed.

Lemma gen_after_exhausted array :
  gen_after array mapParams (S (length array)) = Completed.
Proof.
  rewrite gen_after_S. destruct (gen_after_all array) as [Hh _].
  rewrite gen_next_handed by lia. rewrite Hh.
  by rewrite lookup_ge_None_2.
Qed.
End growth.

(** X11. The generator of [mapParams] reads the array when it is asked, not
    when it is made.  Items appended to the array after its last item has
    been handed out, but before the generator has been asked again, are
    handed out too, with their indices; once the generator has reported
    exhaustion it reports exhaustion for ever, also when the array grows
    afterwards. *)
Theorem mapParams_reads_the_array_late {T} (array more : list T) (k : nat) :
  gen_take (array ++ more) (gen_after array mapParams (length array))
    (length more + k)
  = imap (λ j value, Some (value, length array + j)) more ++ replicate k None
  ∧ gen_take (array ++ more) (gen_after array mapParams (S (length array))) k
    = replicate k None.
Proof.
  split.
  - destruct (gen_after_all array) as [Hh Hnot].
    assert (handed (length (array ++ more))
              (gen_after array mapParams (length array)) = length array) as Hh'.
    { by destruct (gen_after array mapParams (length array)). }
    rewrite gen_take_handed; rewrite Hh'; [|rewrite length_app; lia].
    unfold items. rewrite imap_app, drop_app_length' by (by rewrite length_imap).
    rewrite take_ge by (rewrite length_imap; lia).
    rewrite fmap_imap. f_equal. rewrite length_app. f_equal. lia.
  - rewrite gen_after_exhausted, gen_take_handed by done. simpl.
    rewrite drop_ge by (by rewrite items_length).
    rewrite take_nil. simpl. f_equal. lia.
Qed.

(** ** Further properties: the driver *)

(** A string is its own conversion to a string: an array of strings can
    always be printed. *)
Lemma strings_printable {E} (arr : list string) : printable E arr.
Proof. apply first_unprintable_None. intros i value _. by exists value. Qed.

(** X12. In the driver, whatever the network answers, the call of line 30,
    [mapAllSettled(urls, fetchTodoTitle, 3)], always returns; it returns 200
    settled results, the same, entry by entry, as
    [Promise.allSettled(urls.map(fetchTodoTitle))] of line 21 gives for the
    same answers; and while it runs there are 3 workers (in a [workers]
    array of 6 entries) and never more than 3 requests in flight.  Every
    execution, however far it has got, goes on to return. *)
Theorem main_limited_run_agrees {Response Todo R E}
    (fetch : string → promise Response E) (json : Response → promise Todo E)
    (title : Todo → completion E R) :
  length (main_results1 fetch json title) = 200
  ∧ (∃ sched s,
       main_results2 fetch json title sched
       = Some (normal (Some <$> main_results1 fetch json title), s))
  ∧ (∀ sched c s,
       main_results2 fetch json title sched = Some (c, s) →
       c = normal (Some <$> main_results1 fetch json title)
       ∧ length sched = 200)
  ∧ (∀ sched s,
       reach (async_fn (λ url _ _, fetchTodoTitle fetch json title url))
         urls (Some (Int 3)) sched = Some s →
       length (workers s) = 6 ∧ length (awaited (workers s)) ≤ 3)
  ∧ returns (async_fn (λ url _ _, fetchTodoTitle fetch json title url))
      urls (Some (Int 3)).
Proof.
  set (f := async_fn (λ url _ _, fetchTodoTitle fetch json title url)).
  assert (read_only f) as Hro by (by intros ???).
  assert (length urls = 200) as Hlen
    by (unfold urls; by rewrite length_fmap, length_seq).
  assert (urls ≠ []) as Hne by (intros Heq; by rewrite Heq in Hlen).
  assert (positive (Some (Int 3))) as Hpos by (simpl; lia).
  pose proof (strings_printable (E:=E) urls) as Hprint.
  assert (workers_launched (length urls) (Some (Int 3)) = 3) as HL
    by (rewrite Hlen; reflexivity).
  assert (expected f urls = main_results1 fetch json title) as Hexp.
  { unfold expected, main_results1, allSettled. rewrite <-list_fmap_compose.
    rewrite <-imap_const. apply imap_ext. intros i url _. simpl.
    by destruct (fetchTodoTitle fetch json title url). }
  assert (∀ sched c s,
            main_results2 fetch json title sched = Some (c, s) →
            c = normal (Some <$> main_results1 fetch json title)
            ∧ length sched = 200) as Hall.
  { intros sched c s Hs. unfold main_results2 in Hs. fold f in Hs.
    destruct (mapAllSettled_sound f urls (Some (Int 3)) sched c s Hro Hne Hpos Hs)
      as (-> & Hrest).
    destruct (Hrest Hprint) as (_ & _ & Hsched & _).
    unfold outcome. unfold printable in Hprint. by rewrite Hprint, Hexp, Hsched. }
  pose proof (mapAllSettled_returns f urls (Some (Int 3)) Hro Hprint (λ _, Hpos))
    as Hreturns.
  split_and!.
  - unfold main_results1, allSettled. by rewrite !length_fmap.
  - destruct (Hreturns [] _ eq_refl) as (sched & res & s & Hs).
    exists ([] ++ sched), s. unfold main_results2. fold f.
    by destruct (Hall _ _ _ Hs) as [[= ->] _].
  - exact Hall.
  - intros sched s Hreach. fold f in Hreach. unfold reach in Hreach.
    pose proof (sync_shape f urls (Some (Int 3)) Hne
                  (positive_non_negative _ Hpos)) as Hshape0.
    pose proof (run_shape f _ _ _ _ _ Hshape0 Hreach) as Hshape.
    rewrite HL in Hshape. split; [by destruct Hshape as (-> & _)|].
    by eapply shape_awaited.
  - exact Hreturns.
Qed.
